(** * Cyclical learning-rate schedule: [cyclic_lr.py]

    A shallow embedding of [CyclicLR.schedule] and the properties of the
    triangular waveform it computes.

    Modelling conventions.
    - Python numbers are exact rationals ([Q]); rounding of binary64 is not
      part of the model.  Equality of rates is [Qeq] ([==]).
    - [epochs] and the numeric attributes are Python numbers ([int] or
      [float]), as the attribute defaults and the Keras callback supply
      them, so a true division by zero raises [ZeroDivisionError].
    - [self] is threaded explicitly: a method is a function from the object
      to the object after the call and the outcome of the call.  An
      exception does not undo assignments made before it was raised.
    - Amplitude functions are functions [Q -> outcome Q]; a function given
      by the caller is pure.
    - Module [B64] repeats [schedule] over binary64 numbers, with the
      rounding, infinities and NaN of IEEE 754; it is used where a
      property depends on them. *)

From Stdlib Require Import QArith Qabs Qminmax Qround Qpower.
From Stdlib Require Import ZArith String List Bool Lia Lqa.
From Stdlib Require Floats.
Import ListNotations.

Local Open Scope Q_scope.

(** ** Outcomes of Python expressions *)

Module Py.

(** The exceptions that the scheduler can meet.  [IrrationalPower] is not
    a Python exception: it marks [b ** e] at an exponent that is not an
    integer, whose value is in general not a rational number. *)
Inductive exn : Type :=
| ZeroDivisionError
| TypeError
| NameError
| IrrationalPower
| Exception (msg : string).

Inductive outcome (A : Type) : Type :=
| Ret (a : A)
| Raise (e : exn).

Arguments Ret {A} a.
Arguments Raise {A} e.

Definition obind {A B : Type} (o : outcome A) (k : A -> outcome B)
  : outcome B :=
  match o with
  | Ret a => k a
  | Raise e => Raise e
  end.

(** [a / b] on Python numbers: true division, which raises on a zero
    divisor. *)
Definition div (a b : Q) : outcome Q :=
  if Qeq_bool b 0 then Raise ZeroDivisionError else Ret (a / b).

(** The integer a rational is equal to, if any. *)
Definition integral (q : Q) : option Z :=
  if Qeq_bool q (inject_Z (Qfloor q)) then Some (Qfloor q) else None.

(** [b ** e] at an integral exponent; a zero base with a negative
    exponent raises, as for Python floats. *)
Definition pow (b e : Q) : outcome Q :=
  match integral e with
  | Some n =>
      if Qeq_bool b 0 && (n <? 0)%Z then Raise ZeroDivisionError
      else Ret (b ^ n)
  | None => Raise IrrationalPower
  end.

(** The names bound at module level in [cyclic_lr.py]: the three imports
    and the two classes. *)
Definition module_globals : list string :=
  [ "tf"; "np"; "attr"; "LearningRateScheduler"; "CyclicLR" ]%string.

(** Reading a free name as a number.  None of the module's names is bound
    to a number, so using one in arithmetic is a [TypeError]; a name that
    is not bound at all is a [NameError]. *)
Definition load_global (name : string) : outcome Q :=
  if existsb (String.eqb name) module_globals then Raise TypeError
  else Raise NameError.

End Py.

Import Py.

Notation "'let?' x ':=' c 'in' k" := (obind c (fun x => k))
  (at level 10, x name, c at level 100, k at level 200).

(** ** numpy helpers *)

Module Np.

(** [np.floor]: the result is again a float, here the rational [n/1]. *)
Definition floor (q : Q) : Q := inject_Z (Qfloor q).

Definition abs (q : Q) : Q := Qabs q.

Definition maximum (a b : Q) : Q := Qmax a b.

End Np.

(** ** The scheduler object *)

Definition amplitude : Type := Q -> outcome Q.

(** The attributes of [CyclicLR], in the order of their [attr.ib] lines. *)
Record CyclicLR : Type := mkCyclicLR {
  base_lr : Q;
  max_lr : Q;
  step_size : Q;
  scale_mode : string;
  scale_fn : option amplitude;
  mode : string
}.

Definition set_scale_mode (m : string) (self : CyclicLR) : CyclicLR :=
  {| base_lr := base_lr self; max_lr := max_lr self;
     step_size := step_size self; scale_mode := m;
     scale_fn := scale_fn self; mode := mode self |}.

Definition set_scale_fn (f : option amplitude) (self : CyclicLR) : CyclicLR :=
  {| base_lr := base_lr self; max_lr := max_lr self;
     step_size := step_size self; scale_mode := scale_mode self;
     scale_fn := f; mode := mode self |}.

Definition set_mode (m : string) (self : CyclicLR) : CyclicLR :=
  {| base_lr := base_lr self; max_lr := max_lr self;
     step_size := step_size self; scale_mode := scale_mode self;
     scale_fn := scale_fn self; mode := m |}.

(** A keyword argument: the value given, or the default of the [attr.ib]. *)
Definition kw {A : Type} (given : option A) (default : A) : A :=
  match given with
  | Some a => a
  | None => default
  end.

(** The [__init__] that [attr.s] generates: every attribute is stored as
    given, there is no validator and no converter.  [scale_fn] defaults to
    [None], so leaving it out and passing [None] are the same. *)
Definition CyclicLR_init (base_lr max_lr step_size : option Q)
    (scale_mode : option string) (scale_fn : option amplitude)
    (mode : option string) : CyclicLR :=
  {| base_lr := kw base_lr (1 # 1000);
     max_lr := kw max_lr (6 # 1000);
     step_size := kw step_size 2000;
     scale_mode := kw scale_mode "cycle"%string;
     scale_fn := scale_fn;
     mode := kw mode "triangular"%string |}.

(** ** Methods: state passing over [self] *)

Definition method (A : Type) : Type := CyclicLR -> CyclicLR * outcome A.

Definition mret {A : Type} (a : A) : method A := fun self => (self, Ret a).

Definition mbind {A B : Type} (c : method A) (k : A -> method B)
  : method B :=
  fun self =>
    match c self with
    | (self', Ret a) => k a self'
    | (self', Raise e) => (self', Raise e)
    end.

Definition getattr {A : Type} (field : CyclicLR -> A) : method A :=
  fun self => (self, Ret (field self)).

Definition setattr (update : CyclicLR -> CyclicLR) : method unit :=
  fun self => (update self, Ret tt).

Definition eval {A : Type} (o : outcome A) : method A :=
  fun self => (self, o).

(** Calling an attribute that holds a function or [None]. *)
Definition call (f : option amplitude) (arg : Q) : method Q :=
  match f with
  | Some g => eval (g arg)
  | None => eval (Raise TypeError)
  end.

Notation "x <- c ;; k" := (mbind c (fun x => k))
  (at level 61, c at next level, right associativity).
Notation "c ;; k" := (mbind c (fun _ => k))
  (at level 61, right associativity).

(** The three default amplitude functions of [schedule]. *)
Definition lambda_triangular : amplitude := fun x => Ret 1.

Definition lambda_triangular2 : amplitude :=
  fun x => let? p := pow 2 (x - 1) in div 1 p.

Definition lambda_exp_range : amplitude :=
  fun x => let? gamma := load_global "gamma" in pow gamma x.

(** Lines 48-60 of [schedule]: the amplitude function is chosen from
    [mode] when [scale_fn] is [None]. *)
Definition resolve_scale_fn : method unit :=
  fn <- getattr scale_fn ;;
  match fn with
  | None =>
      m <- getattr mode ;;
      if (m =? "triangular")%string then
        setattr (set_scale_fn (Some lambda_triangular)) ;;
        setattr (set_scale_mode "cycle")
      else if (m =? "triangular2")%string then
        setattr (set_scale_fn (Some lambda_triangular2)) ;;
        setattr (set_scale_mode "cycle")
      else if (m =? "exp_range")%string then
        setattr (set_scale_fn (Some lambda_exp_range)) ;;
        setattr (set_scale_mode "iterations")
      else mret tt
  | Some _ =>
      f <- getattr scale_fn ;;
      setattr (set_scale_fn f) ;;
      sm <- getattr scale_mode ;;
      setattr (set_scale_mode sm)
  end.

(** [CyclicLR.schedule]. *)
Definition schedule (epochs : Q) : method Q :=
  resolve_scale_fn ;;
  s <- getattr step_size ;;
  q <- eval (div epochs (2 * s)) ;;
  let cycle := Np.floor (1 + q) in
  s <- getattr step_size ;;
  r <- eval (div epochs s) ;;
  let x := Np.abs (r - 2 * cycle + 1) in
  sm <- getattr scale_mode ;;
  if (sm =? "cycle")%string then
    b <- getattr base_lr ;;
    m <- getattr max_lr ;;
    b' <- getattr base_lr ;;
    f <- getattr scale_fn ;;
    a <- call f cycle ;;
    mret (b + (m - b') * Np.maximum 0 (1 - x) * a)
  else
    b <- getattr base_lr ;;
    m <- getattr max_lr ;;
    b' <- getattr base_lr ;;
    f <- getattr scale_fn ;;
    a <- call f epochs ;;
    mret (b + (m - b') * Np.maximum 0 (1 - x) * a).

(** Calling [schedule] once per element of a list of epochs on the same
    object, as the training loop does through [on_epoch_begin]. *)
Fixpoint schedule_all (epochs : list Q) (self : CyclicLR)
  : CyclicLR * list (outcome Q) :=
  match epochs with
  | [] => (self, [])
  | e :: rest =>
      let '(self', o) := schedule e self in
      let '(self'', os) := schedule_all rest self' in
      (self'', o :: os)
  end.

Definition default_CyclicLR : CyclicLR :=
  CyclicLR_init None None None None None None.


(** The object after lines 48-60 have run. *)
Definition resolved (self : CyclicLR) : CyclicLR :=
  fst (resolve_scale_fn self).

(** An outcome is the rate [r] (up to equality of rationals). *)
Definition yields (o : outcome Q) (r : Q) : Prop :=
  match o with
  | Ret v => v == r
  | Raise _ => False
  end.

(** A call returned the rate [r]. *)
Definition returns (res : CyclicLR * outcome Q) (r : Q) : Prop :=
  yields (snd res) r.

(** What one call computes from the resolved object when [step_size] is
    not zero (lines 62-70 with both divisions defined). *)
Definition rate_of (self : CyclicLR) (epochs : Q) : outcome Q :=
  let cycle := Np.floor (1 + epochs / (2 * step_size self)) in
  let x := Np.abs (epochs / step_size self - 2 * cycle + 1) in
  let arg := if (scale_mode self =? "cycle")%string then cycle else epochs in
  let? a := match scale_fn self with
            | Some g => g arg
            | None => Raise TypeError
            end in
  Ret (base_lr self + (max_lr self - base_lr self)
                      * Np.maximum 0 (1 - x) * a).

(** ** The formula of the specification *)

Module Spec.

Definition cycle (step_size epoch : Q) : Z :=
  Qfloor (1 + epoch / (2 * step_size)).

Definition x (step_size epoch : Q) : Q :=
  Qabs (epoch / step_size - 2 * inject_Z (cycle step_size epoch) + 1).

Definition rate (base_lr max_lr step_size epoch A : Q) : Q :=
  base_lr + (max_lr - base_lr) * Qmax 0 (1 - x step_size epoch) * A.

(** The input of the amplitude function. *)
Definition amplitude_input (scale_mode : string) (step_size epoch : Q) : Q :=
  if (scale_mode =? "cycle")%string then inject_Z (cycle step_size epoch)
  else epoch.

End Spec.

(** ** Configurations used below *)

Definition triangular_2000 : CyclicLR :=
  CyclicLR_init (Some (1 # 1000)) (Some (6 # 1000)) (Some 2000)
                None None (Some "triangular"%string).

Definition triangular2_default : CyclicLR :=
  CyclicLR_init None None None None None (Some "triangular2"%string).


(** The objects of the two bounded modes: not yet resolved, or resolved to
    one of their amplitude functions. *)
Definition bounded_mode (self : CyclicLR) : Prop :=
  (scale_fn self = None
   /\ (mode self = "triangular"%string \/ mode self = "triangular2"%string))
  \/ (scale_mode self = "cycle"%string
      /\ (scale_fn self = Some lambda_triangular
          \/ scale_fn self = Some lambda_triangular2)).


(** An object of mode ['triangular'] with [scale_fn] left unset at
    construction: before its first call, or after it. *)
Definition in_triangular (self : CyclicLR) : Prop :=
  (scale_fn self = None /\ mode self = "triangular"%string)
  \/ (scale_fn self = Some lambda_triangular
      /\ scale_mode self = "cycle"%string).

(** The three values of [mode] that [schedule] knows. *)
Definition known_mode (m : string) : Prop :=
  m = "triangular"%string \/ m = "triangular2"%string
  \/ m = "exp_range"%string.

(** ** The callback [LearningRateScheduler.on_epoch_begin]

    The method is inherited by [CyclicLR]; it is written once for any
    callback object whose [schedule] attribute is called with the epoch.
    Of the model's optimizer the method touches the attribute [lr] only,
    [None] standing for an optimizer without that attribute.  [print]
    appends its line to the output; the line is kept as the format string
    with the two values it is applied to. *)

Record Optimizer : Type := mkOptimizer {
  lr : option Q
}.

Record Line : Type := mkLine {
  line_format : string;
  line_epoch : Z;
  line_rate : Q
}.

(** How a call of the callback ends: it returns [None], it raises its own
    [ValueError], or an exception of [schedule] passes through. *)
Inductive completion : Type :=
| Returned
| ValueError (msg : string)
| Propagated (e : exn).

Definition dquote : string := String (Ascii.ascii_of_nat 34) EmptyString.

Definition newline : string := String (Ascii.ascii_of_nat 10) EmptyString.

Definition missing_lr_message : string :=
  ("Optimizer must have a " ++ dquote ++ "lr" ++ dquote ++ " attribute.")%string.

Definition epoch_line_format : string :=
  (newline ++ "Epoch %05d: Learning rate is %6.4f.")%string.

Section OnEpochBegin.

Variable Self : Type.
Variable schedule_attr : Q -> Self -> Self * outcome Q.

(** What the method can reach: the callback object, the optimizer of its
    model and the standard output. *)
Record Training : Type := mkTraining {
  callback : Self;
  optimizer : Optimizer;
  stdout : list Line
}.

Definition on_epoch_begin (epoch : Z) (w : Training)
  : Training * completion :=
  match lr (optimizer w) with
  | None => (w, ValueError missing_lr_message)
  | Some current =>
      let lr := current in
      let '(self', o) := schedule_attr (inject_Z epoch) (callback w) in
      match o with
      | Raise e =>
          ({| callback := self'; optimizer := optimizer w;
              stdout := stdout w |}, Propagated e)
      | Ret scheduled_lr =>
          ({| callback := self';
              optimizer := {| lr := Some scheduled_lr |};
              stdout := stdout w
                        ++ [ {| line_format := epoch_line_format;
                                line_epoch := epoch;
                                line_rate := scheduled_lr |} ] |},
           Returned)
      end
  end.

(** The training loop calls the method at the start of each epoch, in
    order, and stops at the first exception. *)
Fixpoint on_epochs (epochs : list Z) (w : Training)
  : Training * completion :=
  match epochs with
  | [] => (w, Returned)
  | e :: rest =>
      match on_epoch_begin e w with
      | (w', Returned) => on_epochs rest w'
      | (w', failure) => (w', failure)
      end
  end.

End OnEpochBegin.

Arguments callback {Self} t.
Arguments optimizer {Self} t.
Arguments stdout {Self} t.
Arguments mkTraining {Self} callback optimizer stdout.
Arguments on_epoch_begin {Self} schedule_attr epoch w.
Arguments on_epochs {Self} schedule_attr epochs w.

(** [LearningRateScheduler.__init__] stores the function it is given; the
    object is that function, and calling its [schedule] attribute leaves
    it as it is. *)
Definition LearningRateScheduler : Type := Q -> outcome Q.

Definition LearningRateScheduler_init (schedule : Q -> outcome Q)
  : LearningRateScheduler := schedule.

Definition LearningRateScheduler_schedule (epoch : Q)
    (self : LearningRateScheduler) : LearningRateScheduler * outcome Q :=
  (self, self epoch).

(** ** [schedule] in binary64

    The same method over the primitive binary64 numbers.  An operation on
    two Python floats and an operation of numpy give the same IEEE 754
    result; they differ when the divisor is zero (Python raises, numpy
    returns an infinity or NaN) . *)

Module B64.

Import PrimFloat FloatOps SpecFloat.

#[local] Set Warnings "-inexact-float".

(** A finite number as an integer mantissa and a binary exponent:
    [(-1)^s * m * 2^e]. *)
Definition signed (s : bool) (m : positive) : Z :=
  if s then Zneg m else Zpos m.

(** An integer of absolute value at most [2^53] as a float. *)
Definition of_Z (n : Z) : float :=
  let a := of_uint63 (Uint63.of_Z (Z.abs n)) in
  if (n <? 0)%Z then opp a else a.

(** [np.floor]: NaN, the infinities, the zeros and the numbers with a
    non-negative exponent (integers already) are returned as they are. *)
Definition floor (f : float) : float :=
  match Prim2SF f with
  | S754_finite s m e =>
      if (e <? 0)%Z then of_Z (Z.div (signed s m) (2 ^ (- e))) else f
  | _ => f
  end.

(** The integer a finite float is equal to, if any. *)
Definition integral (f : float) : option Z :=
  match Prim2SF f with
  | S754_zero _ => Some 0%Z
  | S754_finite s m e =>
      if (0 <=? e)%Z then Some (signed s m * 2 ^ e)%Z
      else if (Zpos m mod 2 ^ (- e) =? 0)%Z
           then Some (Z.div (signed s m) (2 ^ (- e)))
           else None
  | _ => None
  end.

(** [2. ** e] in numpy: exact at an integral exponent, [inf] on overflow
    and [0] on underflow, without an exception. *)
Definition power2 (e : float) : outcome float :=
  if is_nan e then Ret nan
  else if eqb e infinity then Ret infinity
  else if eqb e neg_infinity then Ret zero
  else match integral e with
       | Some n => Ret (Z.ldexp one n)
       | None => Raise IrrationalPower
       end.

(** [b ** e] in numpy: only the base 2 is modelled. *)
Definition power (b e : float) : outcome float :=
  if eqb b two then power2 e
  else Raise (Exception "power: base other than 2").

(** [a / b] on two Python floats. *)
Definition py_div (a b : float) : outcome float :=
  if eqb b zero then Raise ZeroDivisionError else Ret (div a b).

(** [np.maximum]: NaN is propagated. *)
Definition maximum (a b : float) : float :=
  if is_nan a then a
  else if is_nan b then b
  else if ltb a b then b else a.

Definition load_global (name : string) : outcome float :=
  if existsb (String.eqb name) module_globals then Raise TypeError
  else Raise NameError.

Definition amplitude : Type := float -> outcome float.

Record CyclicLR : Type := mkCyclicLR {
  base_lr : float;
  max_lr : float;
  step_size : float;
  scale_mode : string;
  scale_fn : option amplitude;
  mode : string
}.

Definition CyclicLR_init (base_lr max_lr step_size : option float)
    (scale_mode : option string) (scale_fn : option amplitude)
    (mode : option string) : CyclicLR :=
  {| base_lr := kw base_lr 0.001%float;
     max_lr := kw max_lr 0.006%float;
     step_size := kw step_size 2000%float;
     scale_mode := kw scale_mode "cycle"%string;
     scale_fn := scale_fn;
     mode := kw mode "triangular"%string |}.

Definition lambda_triangular : amplitude := fun x => Ret one.

Definition lambda_triangular2 : amplitude :=
  fun x => let? p := power two (sub x one) in Ret (div one p).

Definition lambda_exp_range : amplitude :=
  fun x => let? gamma := load_global "gamma" in power gamma x.

Definition assign (sm : string) (f : option amplitude) (self : CyclicLR)
  : CyclicLR :=
  {| base_lr := base_lr self; max_lr := max_lr self;
     step_size := step_size self; scale_mode := sm;
     scale_fn := f; mode := mode self |}.

(** Lines 48-60. *)
Definition resolved (self : CyclicLR) : CyclicLR :=
  match scale_fn self with
  | None =>
      if (mode self =? "triangular")%string then
        assign "cycle" (Some lambda_triangular) self
      else if (mode self =? "triangular2")%string then
        assign "cycle" (Some lambda_triangular2) self
      else if (mode self =? "exp_range")%string then
        assign "iterations" (Some lambda_exp_range) self
      else self
  | Some _ => assign (scale_mode self) (scale_fn self) self
  end.

Definition call (f : option amplitude) (arg : float) : outcome float :=
  match f with
  | Some g => g arg
  | None => Raise TypeError
  end.

(** [CyclicLR.schedule]: the object after the call is the resolved one,
    whether lines 62-70 return or raise. *)
Definition schedule (epochs : float) (self : CyclicLR)
  : CyclicLR * outcome float :=
  let self := resolved self in
  (self,
   let? q := py_div epochs (mul two (step_size self)) in
   let cycle := floor (add one q) in
   let? r := py_div epochs (step_size self) in
   let x := abs (add (sub r (mul two cycle)) one) in
   if (scale_mode self =? "cycle")%string then
     let? a := call (scale_fn self) cycle in
     Ret (add (base_lr self)
            (mul (mul (sub (max_lr self) (base_lr self))
                      (maximum zero (sub one x))) a))
   else
     let? a := call (scale_fn self) epochs in
     Ret (add (base_lr self)
            (mul (mul (sub (max_lr self) (base_lr self))
                      (maximum zero (sub one x))) a))).

(** The rate of a call, NaN standing for an exception. *)
Definition rate (res : CyclicLR * outcome float) : float :=
  match snd res with
  | Ret r => r
  | Raise _ => nan
  end.

Definition triangular2_default : CyclicLR :=
  CyclicLR_init None None None None None (Some "triangular2"%string).



(** [step_size=0.1], the other attributes at their defaults. *)
Definition step_tenth : CyclicLR :=
  CyclicLR_init None None (Some 0.1%float) None None None.



End B64.

(** ** Basic facts about the embedding *)

Lemma div_nonzero (a b : Q) : ~ b == 0 -> div a b = Ret (a / b).
Proof.
  intros Hb. unfold div.
  destruct (Qeq_bool b 0) eqn:E; [|reflexivity].
  apply Qeq_bool_eq in E. contradiction.
Qed.

Lemma div_zero (a b : Q) : b == 0 -> div a b = Raise ZeroDivisionError.
Proof.
  intros Hb. unfold div. now rewrite (Qeq_eq_bool _ _ Hb).
Qed.

Lemma integral_inject_Z (z : Z) : integral (inject_Z z) = Some z.
Proof.
  unfold integral. rewrite Qfloor_Z.
  now rewrite (Qeq_eq_bool _ _ (Qeq_refl (inject_Z z))).
Qed.

Lemma resolve_scale_fn_returns (self : CyclicLR) :
  resolve_scale_fn self = (resolved self, Ret tt).
Proof.
  unfold resolved, resolve_scale_fn, mbind, getattr, setattr, mret.
  destruct (scale_fn self); simpl; [reflexivity|].
  destruct (mode self =? "triangular")%string; [reflexivity|].
  destruct (mode self =? "triangular2")%string; [reflexivity|].
  destruct (mode self =? "exp_range")%string; reflexivity.
Qed.

Lemma resolved_given (self : CyclicLR) (f : amplitude) :
  scale_fn self = Some f -> resolved self = self.
Proof.
  intros Hf. unfold resolved, resolve_scale_fn, mbind, getattr, setattr.
  rewrite Hf. simpl. destruct self; simpl in *. now subst.
Qed.

Lemma resolved_unknown (self : CyclicLR) :
  scale_fn self = None ->
  (mode self =? "triangular")%string = false ->
  (mode self =? "triangular2")%string = false ->
  (mode self =? "exp_range")%string = false ->
  resolved self = self.
Proof.
  intros Hf H1 H2 H3.
  unfold resolved, resolve_scale_fn, mbind, getattr, setattr, mret.
  now rewrite Hf, H1, H2, H3.
Qed.

Lemma resolved_triangular (self : CyclicLR) :
  scale_fn self = None -> mode self = "triangular"%string ->
  resolved self
  = set_scale_mode "cycle" (set_scale_fn (Some lambda_triangular) self).
Proof.
  intros Hf Hm.
  unfold resolved, resolve_scale_fn, mbind, getattr, setattr.
  now rewrite Hf, Hm.
Qed.

Lemma resolved_triangular2 (self : CyclicLR) :
  scale_fn self = None -> mode self = "triangular2"%string ->
  resolved self
  = set_scale_mode "cycle" (set_scale_fn (Some lambda_triangular2) self).
Proof.
  intros Hf Hm.
  unfold resolved, resolve_scale_fn, mbind, getattr, setattr.
  now rewrite Hf, Hm.
Qed.

Lemma resolved_exp_range (self : CyclicLR) :
  scale_fn self = None -> mode self = "exp_range"%string ->
  resolved self
  = set_scale_mode "iterations" (set_scale_fn (Some lambda_exp_range) self).
Proof.
  intros Hf Hm.
  unfold resolved, resolve_scale_fn, mbind, getattr, setattr.
  now rewrite Hf, Hm.
Qed.

(** Resolution touches [scale_fn] and [scale_mode] only. *)
Lemma resolved_numbers (self : CyclicLR) :
  base_lr (resolved self) = base_lr self
  /\ max_lr (resolved self) = max_lr self
  /\ step_size (resolved self) = step_size self
  /\ mode (resolved self) = mode self.
Proof.
  unfold resolved, resolve_scale_fn, mbind, getattr, setattr, mret.
  destruct (scale_fn self); simpl; [auto|].
  destruct (mode self =? "triangular")%string; [simpl; auto|].
  destruct (mode self =? "triangular2")%string; [simpl; auto|].
  destruct (mode self =? "exp_range")%string; simpl; auto.
Qed.

(** Resolution is idempotent: a second pass changes nothing. *)
Lemma resolved_idempotent (self : CyclicLR) :
  resolved (resolved self) = resolved self.
Proof.
  destruct (scale_fn self) as [f|] eqn:Hf.
  - now rewrite (resolved_given self f Hf), (resolved_given self f Hf).
  - destruct (mode self =? "triangular")%string eqn:H1.
    { apply String.eqb_eq in H1. rewrite (resolved_triangular _ Hf H1).
      now apply resolved_given with (f := lambda_triangular). }
    destruct (mode self =? "triangular2")%string eqn:H2.
    { apply String.eqb_eq in H2. rewrite (resolved_triangular2 _ Hf H2).
      now apply resolved_given with (f := lambda_triangular2). }
    destruct (mode self =? "exp_range")%string eqn:H3.
    { apply String.eqb_eq in H3. rewrite (resolved_exp_range _ Hf H3).
      now apply resolved_given with (f := lambda_exp_range). }
    rewrite (resolved_unknown _ Hf H1 H2 H3).
    now apply resolved_unknown.
Qed.

Lemma schedule_nonzero (self : CyclicLR) (epochs : Q) :
  ~ step_size self == 0 ->
  schedule epochs self = (resolved self, rate_of (resolved self) epochs).
Proof.
  intros Hs.
  destruct (resolved_numbers self) as (_ & _ & Hstep & _).
  assert (Hs' : ~ step_size (resolved self) == 0) by now rewrite Hstep.
  assert (Hs2 : ~ 2 * step_size (resolved self) == 0).
  { intros H. apply Hs'. lra. }
  unfold schedule, mbind at 1.
  rewrite resolve_scale_fn_returns.
  unfold mbind, getattr, eval, rate_of.
  rewrite (div_nonzero _ _ Hs2), (div_nonzero _ _ Hs').
  destruct (scale_mode (resolved self) =? "cycle")%string;
    unfold call, eval, mret, obind;
    destruct (scale_fn (resolved self)) as [g|]; try reflexivity;
    match goal with |- context [g ?a] => destruct (g a); reflexivity end.
Qed.

Lemma schedule_zero (self : CyclicLR) (epochs : Q) :
  step_size self == 0 ->
  schedule epochs self = (resolved self, Raise ZeroDivisionError).
Proof.
  intros Hs.
  destruct (resolved_numbers self) as (_ & _ & Hstep & _).
  assert (Hs2 : 2 * step_size (resolved self) == 0).
  { rewrite Hstep. lra. }
  unfold schedule, mbind at 1.
  rewrite resolve_scale_fn_returns.
  unfold mbind, getattr, eval.
  now rewrite (div_zero _ _ Hs2).
Qed.

(** ** The rate formula *)

(** C1: once the amplitude function is resolved to [f], and [f] yields [A]
    at [cycle] (when [scale_mode] is ['cycle']) or at [epoch] (when
    [scale_mode] is ['iterations']), [schedule epoch] returns
    [base_lr + (max_lr - base_lr) * max(0, 1 - x) * A] with
    [cycle = floor(1 + epoch / (2 * step_size))] and
    [x = |epoch / step_size - 2 * cycle + 1|]; the object is left in its
    resolved state. *)
Theorem schedule_formula (self : CyclicLR) (f : amplitude) (epoch A : Q) :
  scale_fn (resolved self) = Some f ->
  ~ step_size self == 0 ->
  (scale_mode (resolved self) = "cycle"%string
   /\ f (inject_Z (Spec.cycle (step_size self) epoch)) = Ret A)
  \/ (scale_mode (resolved self) = "iterations"%string /\ f epoch = Ret A) ->
  schedule epoch self
  = (resolved self,
     Ret (Spec.rate (base_lr self) (max_lr self) (step_size self) epoch A)).
Proof.
  intros Hf Hs Harg.
  rewrite (schedule_nonzero _ _ Hs). f_equal.
  destruct (resolved_numbers self) as (Hb & Hm & Hstep & _).
  unfold rate_of. rewrite Hf, Hb, Hm, Hstep.
  destruct Harg as [[Hsm HA] | [Hsm HA]]; rewrite Hsm; simpl.
  - unfold Np.floor. fold (Spec.cycle (step_size self) epoch).
    rewrite HA. reflexivity.
  - rewrite HA. reflexivity.
Qed.

Lemma schedule_formula_witness :
  schedule 500 triangular2_default
  = (resolved triangular2_default,
     Ret (Spec.rate (1 # 1000) (6 # 1000) 2000 500 1)).
Proof.
  apply (schedule_formula triangular2_default lambda_triangular2 500 1).
  - reflexivity.
  - vm_compute. discriminate.
  - left. split; reflexivity.
Defined.

(** ** The default waveform at concrete epochs *)

(** C2: with [mode='triangular'], [base_lr=0.001], [max_lr=0.006] and
    [step_size=2000], [schedule] returns [base_lr] at epoch 0, [max_lr] at
    epoch 2000 and [base_lr] again at epoch 4000; the same holds when the
    three calls are made one after the other on one object. *)
Theorem triangular_trough_peak_trough :
  returns (schedule 0 triangular_2000) (base_lr triangular_2000)
  /\ returns (schedule 2000 triangular_2000) (max_lr triangular_2000)
  /\ returns (schedule 4000 triangular_2000) (base_lr triangular_2000)
  /\ Forall2 yields
       (snd (schedule_all [0; 2000; 4000] triangular_2000))
       [1 # 1000; 6 # 1000; 1 # 1000].
Proof.
  repeat split; try (vm_compute; reflexivity).
  repeat constructor; vm_compute; reflexivity.
Qed.

(** C3, as stated, fails: in [triangular2] mode with the default
    configuration the rate at epoch 4000 is [base_lr], which is not
    [base_lr + (max_lr - base_lr) / 2] and lies [0.0025] away from it. *)
Lemma triangular2_epoch_4000_is_trough :
  ~ returns (schedule 4000 triangular2_default)
      (base_lr triangular2_default
       + (max_lr triangular2_default - base_lr triangular2_default) / 2)
  /\ exists r, snd (schedule 4000 triangular2_default) = Ret r
       /\ r == base_lr triangular2_default
       /\ Qabs (r - (35 # 10000)) == (25 # 10000).
Proof.
  split.
  - vm_compute. discriminate.
  - eexists. split; [vm_compute; reflexivity|].
    split; vm_compute; reflexivity.
Qed.

(** C3, amended: in [triangular2] mode with the default configuration the
    rate at epoch 6000, the peak of cycle 2, is
    [base_lr + (max_lr - base_lr) / 2], the rate at epoch 2000, the peak of
    cycle 1, is [max_lr], and the rate at epoch 4000, where cycle 2
    starts, is [base_lr]. *)
Theorem triangular2_second_peak_is_half :
  returns (schedule 2000 triangular2_default) (max_lr triangular2_default)
  /\ returns (schedule 6000 triangular2_default)
       (base_lr triangular2_default
        + (max_lr triangular2_default - base_lr triangular2_default) / 2)
  /\ returns (schedule 4000 triangular2_default)
       (base_lr triangular2_default)
  /\ Spec.cycle (step_size triangular2_default) 2000 = 1%Z
  /\ Spec.cycle (step_size triangular2_default) 4000 = 2%Z
  /\ Spec.cycle (step_size triangular2_default) 6000 = 2%Z.
Proof.
  repeat split; vm_compute; reflexivity.
Qed.

(** C9: with the default configuration the rates at epochs 0, 500, 1000,
    1500 and 2000, computed by successive calls on one object, are
    strictly increasing and the last one is [0.006]. *)
Theorem default_ramp_strictly_increasing :
  exists r0 r1 r2 r3 r4 : Q,
    snd (schedule_all [0; 500; 1000; 1500; 2000] default_CyclicLR)
    = [Ret r0; Ret r1; Ret r2; Ret r3; Ret r4]
    /\ r0 < r1 /\ r1 < r2 /\ r2 < r3 /\ r3 < r4
    /\ r4 == (6 # 1000).
Proof.
  do 5 eexists. split; [vm_compute; reflexivity|].
  repeat split; vm_compute; reflexivity.
Qed.

(** ** Errors raised at invocation time *)

(** C6: with a [mode] that is none of ['triangular'], ['triangular2'],
    ['exp_range'] and [scale_fn=None], construction stores the attributes
    without validation, [scale_fn] stays [None], and every call of
    [schedule] (the first one included) raises [TypeError] and leaves the
    object as it was.  [step_size] is taken to be non-zero, so that the
    call of the amplitude function is reached. *)
Theorem unknown_mode_raises_TypeError
    (b m s : option Q) (sm : option string) (md : string) :
  md <> "triangular"%string ->
  md <> "triangular2"%string ->
  md <> "exp_range"%string ->
  ~ kw s 2000 == 0 ->
  let self := CyclicLR_init b m s sm None (Some md) in
  mode self = md
  /\ scale_fn self = None
  /\ forall epoch,
       schedule epoch self = (self, Raise TypeError)
       /\ scale_fn (fst (schedule epoch self)) = None.
Proof.
  intros H1 H2 H3 Hs self.
  apply String.eqb_neq in H1, H2, H3.
  assert (Hr : resolved self = self)
    by (apply resolved_unknown; [reflexivity | assumption ..]).
  repeat split.
  - rewrite (schedule_nonzero self epoch Hs), Hr.
    unfold rate_of. reflexivity.
  - rewrite (schedule_nonzero self epoch Hs), Hr. reflexivity.
Qed.

Lemma unknown_mode_raises_TypeError_witness :
  let self := CyclicLR_init None None None None None (Some "cosine"%string) in
  mode self = "cosine"%string
  /\ scale_fn self = None
  /\ forall epoch,
       schedule epoch self = (self, Raise TypeError)
       /\ scale_fn (fst (schedule epoch self)) = None.
Proof.
  apply (unknown_mode_raises_TypeError None None None None "cosine");
    [discriminate | discriminate | discriminate | vm_compute; discriminate].
Defined.

(** C7: with [mode='exp_range'] and [scale_fn=None], every call of
    [schedule] raises [NameError]: the amplitude function chosen for this
    mode reads [gamma], which is not among the names of the module.  The
    object keeps that amplitude function and [scale_mode='iterations'], so
    later calls fail in the same way.  [step_size] is taken to be
    non-zero, so that the call of the amplitude function is reached. *)
Theorem exp_range_raises_NameError
    (b m s : option Q) (sm : option string) :
  ~ kw s 2000 == 0 ->
  let self := CyclicLR_init b m s sm None (Some "exp_range"%string) in
  ~ In "gamma"%string module_globals
  /\ (forall x, lambda_exp_range x = Raise NameError)
  /\ forall epoch,
       snd (schedule epoch self) = Raise NameError
       /\ scale_fn (fst (schedule epoch self)) = Some lambda_exp_range
       /\ scale_mode (fst (schedule epoch self)) = "iterations"%string
       /\ forall epoch',
            snd (schedule epoch' (fst (schedule epoch self)))
            = Raise NameError.
Proof.
  intros Hs self.
  assert (Hr : resolved self
               = set_scale_mode "iterations"
                   (set_scale_fn (Some lambda_exp_range) self))
    by (apply resolved_exp_range; reflexivity).
  split; [|split].
  - simpl. intros H. repeat (destruct H as [H | H]; [discriminate|]).
    exact H.
  - reflexivity.
  - intros epoch. rewrite (schedule_nonzero self epoch Hs).
    cbn [fst snd]. rewrite Hr. repeat split.
    intros epoch'.
    rewrite schedule_nonzero by exact Hs.
    cbn [snd].
    rewrite (resolved_given _ lambda_exp_range) by reflexivity.
    reflexivity.
Qed.

Lemma exp_range_raises_NameError_witness :
  snd (schedule 0 (CyclicLR_init None None None None None
                     (Some "exp_range"%string)))
  = Raise NameError.
Proof.
  apply (exp_range_raises_NameError None None None None).
  vm_compute. discriminate.
Defined.

(** ** A given amplitude function makes [mode] irrelevant *)

Lemma rate_of_set_mode (self : CyclicLR) (md : string) (epochs : Q) :
  rate_of (set_mode md self) epochs = rate_of self epochs.
Proof. reflexivity. Qed.

(** With [scale_fn] given, a call leaves the object as it is. *)
Lemma schedule_given_state (self : CyclicLR) (f : amplitude) (epochs : Q) :
  scale_fn self = Some f -> fst (schedule epochs self) = self.
Proof.
  intros Hf. destruct (Qeq_dec (step_size self) 0) as [Hz | Hnz].
  - rewrite (schedule_zero _ _ Hz). now apply resolved_given with (f := f).
  - rewrite (schedule_nonzero _ _ Hnz). now apply resolved_given with (f := f).
Qed.

Lemma schedule_given_ignores_mode
    (self : CyclicLR) (f : amplitude) (md : string) (epochs : Q) :
  scale_fn self = Some f ->
  snd (schedule epochs (set_mode md self)) = snd (schedule epochs self).
Proof.
  intros Hf.
  assert (Hr : resolved self = self) by now apply resolved_given with (f := f).
  assert (Hr' : resolved (set_mode md self) = set_mode md self)
    by now apply resolved_given with (f := f).
  destruct (Qeq_dec (step_size self) 0) as [Hz | Hnz].
  - rewrite (schedule_zero self _ Hz).
    now rewrite (schedule_zero (set_mode md self) _ Hz).
  - rewrite (schedule_nonzero self _ Hnz).
    rewrite (schedule_nonzero (set_mode md self) _ Hnz).
    now rewrite Hr, Hr'.
Qed.

Lemma schedule_all_given_state
    (f : amplitude) (epochs : list Q) (self : CyclicLR) :
  scale_fn self = Some f -> fst (schedule_all epochs self) = self.
Proof.
  revert self. induction epochs as [|e rest IH]; intros self Hf; simpl.
  - reflexivity.
  - pose proof (schedule_given_state self f e Hf) as Hst.
    destruct (schedule e self) as [self' o]. simpl in Hst. subst self'.
    specialize (IH self Hf).
    destruct (schedule_all rest self) as [self'' os]. exact IH.
Qed.

Lemma schedule_all_given_ignores_mode
    (f : amplitude) (md : string) (epochs : list Q) (self : CyclicLR) :
  scale_fn self = Some f ->
  snd (schedule_all epochs (set_mode md self))
  = snd (schedule_all epochs self).
Proof.
  revert self. induction epochs as [|e rest IH]; intros self Hf; simpl.
  - reflexivity.
  - pose proof (schedule_given_state self f e Hf) as Hst.
    pose proof (schedule_given_state (set_mode md self) f e Hf) as Hst'.
    pose proof (schedule_given_ignores_mode self f md e Hf) as Hout.
    destruct (schedule e self) as [s1 o1].
    destruct (schedule e (set_mode md self)) as [s2 o2].
    simpl in Hst, Hst', Hout. subst s1 s2 o2.
    specialize (IH self Hf).
    destruct (schedule_all rest self) as [s3 os3].
    destruct (schedule_all rest (set_mode md self)) as [s4 os4].
    simpl in IH. simpl. now rewrite IH.
Qed.

(** C8: two schedulers constructed with the same non-[None] [scale_fn]
    and [scale_mode='iterations'] that differ in [mode] only return the
    same outcome for every sequence of epochs; no call changes [scale_fn]
    or [scale_mode] (the object is left as constructed); and assigning
    another [mode] after any number of calls does not change what later
    calls return. *)
Theorem given_scale_fn_overrides_mode
    (b m s : option Q) (f : amplitude) (md1 md2 : option string)
    (epochs : list Q) :
  let c1 := CyclicLR_init b m s (Some "iterations"%string) (Some f) md1 in
  let c2 := CyclicLR_init b m s (Some "iterations"%string) (Some f) md2 in
  snd (schedule_all epochs c1) = snd (schedule_all epochs c2)
  /\ scale_fn (fst (schedule_all epochs c1)) = Some f
  /\ scale_mode (fst (schedule_all epochs c1)) = "iterations"%string
  /\ fst (schedule_all epochs c1) = c1
  /\ forall (md' : string) (later : list Q),
       snd (schedule_all later (set_mode md' (fst (schedule_all epochs c1))))
       = snd (schedule_all later c1).
Proof.
  intros c1 c2.
  assert (Hf : scale_fn c1 = Some f) by reflexivity.
  assert (Hst : fst (schedule_all epochs c1) = c1)
    by now apply schedule_all_given_state with (f := f).
  split; [|rewrite Hst; repeat split].
  - change c2 with (set_mode (kw md2 "triangular"%string) c1).
    symmetry. now apply schedule_all_given_ignores_mode with (f := f).
  - intros md' later.
    now apply schedule_all_given_ignores_mode with (f := f).
Qed.

(** ** Bounds of the triangular modes *)

Lemma integral_Qeq (q : Q) (n : Z) : q == inject_Z n -> integral q = Some n.
Proof.
  intros H. unfold integral.
  assert (Hfl : Qfloor q = n) by (rewrite H; apply Qfloor_Z).
  rewrite Hfl. now rewrite (Qeq_eq_bool _ _ H).
Qed.

Lemma lambda_triangular2_at (z : Z) :
  lambda_triangular2 (inject_Z z) = Ret (1 / 2 ^ (z - 1)).
Proof.
  unfold lambda_triangular2, pow.
  rewrite (integral_Qeq _ (z - 1)).
  - change (Qeq_bool 2 0) with false. cbn [andb obind].
    apply div_nonzero. apply Qpower_not_0. discriminate.
  - unfold Qeq, Qminus, Qplus, Qopp, inject_Z. simpl. lia.
Qed.


Lemma cycle_ge_1 (s e : Q) :
  0 < s -> 0 <= e -> (1 <= Qfloor (1 + e / (2 * s)))%Z.
Proof.
  intros Hs He.
  assert (Hd : 0 <= e / (2 * s)).
  { apply Qle_shift_div_l; lra. }
  assert (Hle : 1 <= 1 + e / (2 * s)).
  { revert Hd. generalize (e / (2 * s)). intros d Hd. lra. }
  exact (Qfloor_resp_le 1 _ Hle).
Qed.




Lemma bounded_mode_resolved (self : CyclicLR) :
  bounded_mode self ->
  scale_mode (resolved self) = "cycle"%string
  /\ (scale_fn (resolved self) = Some lambda_triangular
      \/ scale_fn (resolved self) = Some lambda_triangular2).
Proof.
  intros [[Hf [Hm | Hm]] | [Hsm Hfn]].
  - rewrite (resolved_triangular _ Hf Hm). simpl. auto.
  - rewrite (resolved_triangular2 _ Hf Hm). simpl. auto.
  - destruct Hfn as [Hfn | Hfn];
      rewrite (resolved_given _ _ Hfn); auto.
Qed.




(** ** [step_size] is not validated *)


Lemma rate_of_default_modes_returns (self : CyclicLR) (epochs : Q) :
  scale_mode self = "cycle"%string ->
  scale_fn self = Some lambda_triangular
  \/ scale_fn self = Some lambda_triangular2 ->
  exists r, rate_of self epochs = Ret r.
Proof.
  intros Hsm Hfn. unfold rate_of.
  rewrite Hsm. cbn [String.eqb Ascii.eqb Bool.eqb].
  destruct Hfn as [Hfn | Hfn]; rewrite Hfn.
  - eexists. reflexivity.
  - unfold Np.floor. rewrite lambda_triangular2_at.
    eexists. reflexivity.
Qed.

(** ** Cycle boundaries *)

Section CycleBoundary.

Variable k : Z.
Variable s : Q.
Hypothesis step_nonzero : ~ s == 0.

Lemma boundary_quotient : (2 * inject_Z k * s) / (2 * s) == inject_Z k.
Proof. field. exact step_nonzero. Qed.

Lemma boundary_cycle : Spec.cycle s (2 * inject_Z k * s) = (1 + k)%Z.
Proof.
  unfold Spec.cycle. rewrite boundary_quotient.
  change (1 + inject_Z k) with (inject_Z 1 + inject_Z k).
  rewrite <- (inject_Z_plus 1 k). apply Qfloor_Z.
Qed.

Lemma boundary_phase : Spec.x s (2 * inject_Z k * s) == 1.
Proof.
  unfold Spec.x. rewrite boundary_cycle.
  assert (Hin : (2 * inject_Z k * s) / s - 2 * inject_Z (1 + k) + 1 == - (1)).
  { rewrite inject_Z_plus. change (inject_Z 1) with 1.
    field. exact step_nonzero. }
  rewrite Hin. reflexivity.
Qed.

Lemma boundary_factor : Qmax 0 (1 - Spec.x s (2 * inject_Z k * s)) == 0.
Proof.
  apply Q.max_l. rewrite boundary_phase. discriminate.
Qed.

End CycleBoundary.

(** C10, amended: for every natural number [k] and [step_size > 0], at
    an epoch that is exactly [2 * k * step_size] the factor
    [max(0, 1 - x)] is [0] and [schedule] returns [base_lr], whatever
    amplitude function and [scale_mode] are in effect, as long as the
    amplitude function yields a number at the input it is called with. *)
Theorem cycle_boundary_returns_base_lr
    (self : CyclicLR) (f : amplitude) (k : nat) (A : Q) :
  0 < step_size self ->
  scale_fn (resolved self) = Some f ->
  let epoch := 2 * inject_Z (Z.of_nat k) * step_size self in
  f (Spec.amplitude_input (scale_mode (resolved self))
       (step_size self) epoch) = Ret A ->
  Qmax 0 (1 - Spec.x (step_size self) epoch) == 0
  /\ returns (schedule epoch self) (base_lr self).
Proof.
  intros Hs Hf epoch HA.
  assert (Hnz : ~ step_size self == 0) by lra.
  pose proof (boundary_factor (Z.of_nat k) (step_size self) Hnz) as H0.
  fold epoch in H0. split; [exact H0|].
  destruct (resolved_numbers self) as (Hb & Hm & Hstep & _).
  unfold returns. rewrite (schedule_nonzero _ _ Hnz). cbn [snd].
  unfold yields.
  unfold rate_of. rewrite Hf, Hb, Hm, Hstep.
  unfold Spec.amplitude_input, Spec.cycle in HA.
  unfold Np.floor. rewrite HA. cbn [obind].
  unfold Spec.x, Spec.cycle in H0. unfold Np.maximum, Np.abs, Np.floor.
  rewrite H0. ring.
Qed.

Lemma cycle_boundary_returns_base_lr_witness :
  Qmax 0 (1 - Spec.x 2000 (2 * inject_Z (Z.of_nat 3) * 2000)) == 0
  /\ returns (schedule (2 * inject_Z (Z.of_nat 3) * 2000) triangular2_default)
       (1 # 1000).
Proof.
  apply (cycle_boundary_returns_base_lr triangular2_default
           lambda_triangular2 3 (1 # 8)).
  - vm_compute. reflexivity.
  - reflexivity.
  - vm_compute. reflexivity.
Defined.

(** ** The waveform inside a cycle *)

Lemma Qfloor_unique (q : Q) (n : Z) :
  inject_Z n <= q -> q < inject_Z n + 1 -> Qfloor q = n.
Proof.
  intros Hlo Hhi.
  pose proof (Qfloor_le q) as Hfl.
  pose proof (Qlt_floor q) as Hfu.
  assert (H1 : (n < Qfloor q + 1)%Z).
  { rewrite Zlt_Qlt. eapply Qle_lt_trans; eassumption. }
  assert (H2 : (Qfloor q < n + 1)%Z).
  { rewrite Zlt_Qlt. rewrite (inject_Z_plus n 1).
    eapply Qle_lt_trans; eassumption. }
  lia.
Qed.

(** The cycle number and the phase depend on the value of the epoch, not
    on the fraction that represents it. *)
Lemma cycle_compat (s e e' : Q) :
  e == e' -> Spec.cycle s e = Spec.cycle s e'.
Proof. intros H. unfold Spec.cycle. now rewrite H. Qed.

Lemma x_compat (s e e' : Q) : e == e' -> Spec.x s e == Spec.x s e'.
Proof.
  intros H. unfold Spec.x. rewrite (cycle_compat s e e' H). now rewrite H.
Qed.

Section Phase.

Variable s : Q.
Hypothesis step_nonzero : ~ s == 0.

(** The signed phase [epoch / step_size - 2 * cycle + 1] lies in [-1, 1). *)
Lemma signed_phase_bounds (e : Q) :
  - (1) <= e / s - 2 * inject_Z (Spec.cycle s e) + 1
  /\ e / s - 2 * inject_Z (Spec.cycle s e) + 1 < 1.
Proof.
  unfold Spec.cycle.
  assert (He : e / s == 2 * (e / (2 * s))) by (field; exact step_nonzero).
  rewrite He.
  pose proof (Qfloor_le (1 + e / (2 * s))) as Hlo.
  pose proof (Qlt_floor (1 + e / (2 * s))) as Hhi.
  rewrite inject_Z_plus in Hhi. change (inject_Z 1) with 1 in Hhi.
  revert Hlo Hhi.
  generalize (inject_Z (Qfloor (1 + e / (2 * s)))).
  generalize (e / (2 * s)).
  intros t c Hlo Hhi. split; lra.
Qed.

Lemma x_le_1 (e : Q) : Spec.x s e <= 1.
Proof.
  unfold Spec.x. apply Qabs_Qle_condition.
  destruct (signed_phase_bounds e) as [Hlo Hhi]. split; lra.
Qed.

Lemma factor_unclamped (e : Q) :
  Qmax 0 (1 - Spec.x s e) == 1 - Spec.x s e.
Proof. apply Q.max_r. pose proof (x_le_1 e). lra. Qed.

(** Inside cycle [k + 1], at [u] half-cycles after its start. *)
Lemma cycle_at (k : Z) (u : Q) :
  0 <= u -> u < 2 -> Spec.cycle s ((2 * inject_Z k + u) * s) = (k + 1)%Z.
Proof.
  intros Hu0 Hu2. unfold Spec.cycle.
  assert (Hq : (2 * inject_Z k + u) * s / (2 * s) == inject_Z k + u / 2)
    by (field; exact step_nonzero).
  rewrite Hq. apply Qfloor_unique.
  - rewrite inject_Z_plus. change (inject_Z 1) with 1.
    assert (0 <= u / 2) by (apply Qle_shift_div_l; lra).
    revert H. generalize (u / 2). intros h Hh. lra.
  - rewrite inject_Z_plus. change (inject_Z 1) with 1.
    assert (u / 2 < 1) by (apply Qlt_shift_div_r; lra).
    revert H. generalize (u / 2). intros h Hh. lra.
Qed.

Lemma x_at (k : Z) (u : Q) :
  0 <= u -> u < 2 -> Spec.x s ((2 * inject_Z k + u) * s) == Qabs (u - 1).
Proof.
  intros Hu0 Hu2. unfold Spec.x. rewrite (cycle_at k u Hu0 Hu2).
  apply Qabs_wd. rewrite inject_Z_plus. change (inject_Z 1) with 1.
  field. exact step_nonzero.
Qed.

Lemma factor_at (k : Z) (u : Q) :
  0 <= u -> u < 2 ->
  Qmax 0 (1 - Spec.x s ((2 * inject_Z k + u) * s)) == 1 - Qabs (u - 1).
Proof.
  intros Hu0 Hu2. rewrite factor_unclamped. now rewrite (x_at k u Hu0 Hu2).
Qed.

End Phase.

(** ** What a call returns in the default modes *)

Lemma schedule_rate (self : CyclicLR) (f : amplitude) (e A : Q) :
  scale_fn (resolved self) = Some f ->
  ~ step_size self == 0 ->
  f (Spec.amplitude_input (scale_mode (resolved self)) (step_size self) e)
  = Ret A ->
  schedule e self
  = (resolved self,
     Ret (Spec.rate (base_lr self) (max_lr self) (step_size self) e A)).
Proof.
  intros Hf Hs HA.
  rewrite (schedule_nonzero _ _ Hs). f_equal.
  destruct (resolved_numbers self) as (Hb & Hm & Hstep & _).
  unfold rate_of. rewrite Hf, Hb, Hm, Hstep.
  unfold Spec.amplitude_input, Spec.cycle in HA. unfold Np.floor.
  rewrite HA. reflexivity.
Qed.

Lemma in_triangular_resolved (self : CyclicLR) :
  in_triangular self ->
  scale_fn (resolved self) = Some lambda_triangular
  /\ scale_mode (resolved self) = "cycle"%string.
Proof.
  intros [[Hf Hm] | [Hf Hsm]].
  - rewrite (resolved_triangular _ Hf Hm). split; reflexivity.
  - rewrite (resolved_given _ _ Hf). split; assumption.
Qed.

Lemma schedule_in_triangular (self : CyclicLR) (e : Q) :
  in_triangular self -> ~ step_size self == 0 ->
  schedule e self
  = (resolved self,
     Ret (Spec.rate (base_lr self) (max_lr self) (step_size self) e 1)).
Proof.
  intros Hin Hs. destruct (in_triangular_resolved self Hin) as [Hf Hsm].
  now apply schedule_rate with (f := lambda_triangular).
Qed.

(** An epoch of cycle [k + 1], written as a number of half-cycles after
    the start of the cycle. *)
Lemma epoch_in_cycle (s e : Q) (k : Z) :
  0 < s ->
  2 * inject_Z k * s <= e -> e < (2 * inject_Z k + 2) * s ->
  e == (2 * inject_Z k + (e / s - 2 * inject_Z k)) * s
  /\ 0 <= e / s - 2 * inject_Z k
  /\ e / s - 2 * inject_Z k < 2.
Proof.
  intros Hs Hlo Hhi. split; [field; lra|].
  assert (H1 : 2 * inject_Z k <= e / s)
    by (apply Qle_shift_div_l; assumption).
  assert (H2 : e / s < 2 * inject_Z k + 2)
    by (apply Qlt_shift_div_r; assumption).
  revert H1 H2. generalize (e / s). intros d H1 H2. split; lra.
Qed.

(** The factor [max(0, 1 - x)] on the rising and on the falling half of
    cycle [k + 1]. *)
Lemma factor_rising (s e : Q) (k : Z) :
  0 < s ->
  2 * inject_Z k * s <= e -> e <= (2 * inject_Z k + 1) * s ->
  Qmax 0 (1 - Spec.x s e) == (e - 2 * inject_Z k * s) / s.
Proof.
  intros Hs Hlo Hhi.
  assert (Hnz : ~ s == 0) by lra.
  assert (Hhi' : e < (2 * inject_Z k + 2) * s) by lra.
  destruct (epoch_in_cycle s e k Hs Hlo Hhi') as (He & Hu0 & Hu2).
  assert (Hu1 : e / s - 2 * inject_Z k <= 1).
  { assert (H : e / s <= 2 * inject_Z k + 1)
      by (apply Qle_shift_div_r; assumption).
    revert H. generalize (e / s). intros d H. lra. }
  rewrite (x_compat s _ _ He) at 1.
  rewrite (factor_at s Hnz k _ Hu0 Hu2).
  rewrite Qabs_neg by (revert Hu1; generalize (e / s); intros d H; lra).
  field. exact Hnz.
Qed.

Lemma factor_falling (s e : Q) (k : Z) :
  0 < s ->
  (2 * inject_Z k + 1) * s <= e -> e <= (2 * inject_Z k + 2) * s ->
  Qmax 0 (1 - Spec.x s e) == 1 - (e - (2 * inject_Z k + 1) * s) / s.
Proof.
  intros Hs Hlo Hhi.
  assert (Hnz : ~ s == 0) by lra.
  destruct (Qlt_le_dec e ((2 * inject_Z k + 2) * s)) as [Hlt | Hge].
  - assert (Hlo' : 2 * inject_Z k * s <= e) by lra.
    destruct (epoch_in_cycle s e k Hs Hlo' Hlt) as (He & Hu0 & Hu2).
    assert (Hu1 : 1 <= e / s - 2 * inject_Z k).
    { assert (H : 2 * inject_Z k + 1 <= e / s)
        by (apply Qle_shift_div_l; assumption).
      revert H. generalize (e / s). intros d H. lra. }
    rewrite (x_compat s _ _ He) at 1.
    rewrite (factor_at s Hnz k _ Hu0 Hu2).
    rewrite Qabs_pos by (revert Hu1; generalize (e / s); intros d H; lra).
    field. exact Hnz.
  - assert (He : e == 2 * inject_Z (k + 1) * s).
    { rewrite inject_Z_plus. change (inject_Z 1) with 1. lra. }
    rewrite (x_compat s _ _ He) at 1.
    rewrite (boundary_factor (k + 1) s Hnz).
    rewrite He, inject_Z_plus. change (inject_Z 1) with 1.
    field. exact Hnz.
Qed.

Lemma quotient_le_compat (s a b : Q) : 0 < s -> a <= b -> a / s <= b / s.
Proof.
  intros Hs Hab. unfold Qdiv. apply Qmult_le_compat_r; [exact Hab|].
  apply Qlt_le_weak. now apply Qinv_lt_0_compat.
Qed.

(** X4: in mode ['triangular'] with [step_size > 0] and
    [base_lr <= max_lr], the rate does not decrease along the rising half
    of a cycle and does not increase along the falling half. *)
Theorem triangular_monotone_on_edges
    (self : CyclicLR) (k : Z) (e1 e2 : Q) :
  in_triangular self ->
  0 < step_size self ->
  base_lr self <= max_lr self ->
  e1 <= e2 ->
  exists r1 r2,
    snd (schedule e1 self) = Ret r1
    /\ snd (schedule e2 self) = Ret r2
    /\ (2 * inject_Z k * step_size self <= e1 ->
        e2 <= (2 * inject_Z k + 1) * step_size self -> r1 <= r2)
    /\ ((2 * inject_Z k + 1) * step_size self <= e1 ->
        e2 <= (2 * inject_Z k + 2) * step_size self -> r2 <= r1).
Proof.
  intros Hin Hs Hbm H12.
  assert (Hnz : ~ step_size self == 0) by lra.
  rewrite (schedule_in_triangular self e1 Hin Hnz).
  rewrite (schedule_in_triangular self e2 Hin Hnz).
  do 2 eexists. split; [reflexivity|]. split; [reflexivity|].
  unfold Spec.rate. split; intros Hlo Hhi.
  - rewrite (factor_rising _ e1 k Hs) by lra.
    rewrite (factor_rising _ e2 k Hs) by lra.
    assert (H : (e1 - 2 * inject_Z k * step_size self) / step_size self
                <= (e2 - 2 * inject_Z k * step_size self) / step_size self)
      by (apply quotient_le_compat; lra).
    revert H.
    generalize ((e1 - 2 * inject_Z k * step_size self) / step_size self).
    generalize ((e2 - 2 * inject_Z k * step_size self) / step_size self).
    intros u2 u1 H. nra.
  - rewrite (factor_falling _ e1 k Hs) by lra.
    rewrite (factor_falling _ e2 k Hs) by lra.
    assert (H : (e1 - (2 * inject_Z k + 1) * step_size self) / step_size self
                <= (e2 - (2 * inject_Z k + 1) * step_size self)
                   / step_size self)
      by (apply quotient_le_compat; lra).
    revert H.
    generalize ((e1 - (2 * inject_Z k + 1) * step_size self) / step_size self).
    generalize ((e2 - (2 * inject_Z k + 1) * step_size self) / step_size self).
    intros u2 u1 H. nra.
Qed.

Lemma triangular_monotone_on_edges_witness :
  exists r1 r2,
    snd (schedule 100 default_CyclicLR) = Ret r1
    /\ snd (schedule 1900 default_CyclicLR) = Ret r2
    /\ r1 <= r2.
Proof.
  destruct (triangular_monotone_on_edges default_CyclicLR 0 100 1900)
    as (r1 & r2 & H1 & H2 & Hup & _).
  - left. split; reflexivity.
  - vm_compute. reflexivity.
  - vm_compute. discriminate.
  - vm_compute. discriminate.
  - exists r1, r2. split; [exact H1|]. split; [exact H2|].
    apply Hup; vm_compute; discriminate.
Defined.

(** ** The object across calls *)

Lemma schedule_state (self : CyclicLR) (e : Q) :
  fst (schedule e self) = resolved self.
Proof.
  destruct (Qeq_dec (step_size self) 0) as [Hz | Hnz].
  - now rewrite (schedule_zero _ _ Hz).
  - now rewrite (schedule_nonzero _ _ Hnz).
Qed.

Lemma schedule_outcome_resolved (self : CyclicLR) (e : Q) :
  snd (schedule e (resolved self)) = snd (schedule e self).
Proof.
  destruct (resolved_numbers self) as (_ & _ & Hstep & _).
  destruct (Qeq_dec (step_size self) 0) as [Hz | Hnz].
  - rewrite (schedule_zero self _ Hz).
    rewrite (schedule_zero (resolved self)) by now rewrite Hstep.
    reflexivity.
  - rewrite (schedule_nonzero self _ Hnz).
    rewrite (schedule_nonzero (resolved self)) by now rewrite Hstep.
    now rewrite resolved_idempotent.
Qed.

Lemma schedule_all_state (es : list Q) (self : CyclicLR) :
  fst (schedule_all es self)
  = match es with [] => self | _ :: _ => resolved self end.
Proof.
  revert self. induction es as [|e rest IH]; intros self; [reflexivity|].
  simpl. pose proof (schedule_state self e) as Hst.
  destruct (schedule e self) as [self' o]. simpl in Hst. subst self'.
  specialize (IH (resolved self)).
  destruct (schedule_all rest (resolved self)) as [self'' os].
  simpl in IH |- *. rewrite IH.
  destruct rest; [reflexivity | apply resolved_idempotent].
Qed.

Lemma schedule_all_outcomes (es : list Q) (self : CyclicLR) :
  snd (schedule_all es self) = map (fun e => snd (schedule e self)) es.
Proof.
  revert self. induction es as [|e rest IH]; intros self; [reflexivity|].
  simpl. pose proof (schedule_state self e) as Hst.
  destruct (schedule e self) as [self' o] eqn:Hsch. simpl in Hst. subst self'.
  specialize (IH (resolved self)).
  destruct (schedule_all rest (resolved self)) as [self'' os].
  simpl in IH |- *. rewrite IH. f_equal.
  apply map_ext. intros a. apply schedule_outcome_resolved.
Qed.

(** X13: what a call returns or raises does not depend on the calls made
    before it on the same object: after any sequence of calls, [schedule
    e] has the outcome it has on the object as constructed, and the
    outcomes of a sequence of calls are the outcomes of the single calls.
    The only trace of earlier calls is the resolved amplitude function. *)
Theorem schedule_history_independent
    (self : CyclicLR) (earlier : list Q) (e : Q) :
  snd (schedule e (fst (schedule_all earlier self))) = snd (schedule e self)
  /\ snd (schedule_all earlier self)
     = map (fun e' => snd (schedule e' self)) earlier
  /\ (earlier <> [] -> fst (schedule_all earlier self) = resolved self).
Proof.
  split; [|split].
  - rewrite schedule_all_state. destruct earlier; [reflexivity|].
    apply schedule_outcome_resolved.
  - apply schedule_all_outcomes.
  - intros Hne. rewrite schedule_all_state.
    destruct earlier; [contradiction | reflexivity].
Qed.

Lemma resolved_set_scale_mode (self : CyclicLR) (sm : string) :
  scale_fn self = None -> known_mode (mode self) ->
  resolved (set_scale_mode sm self) = resolved self.
Proof.
  intros Hf [Hm | [Hm | Hm]].
  - rewrite (resolved_triangular self Hf Hm).
    now rewrite (resolved_triangular (set_scale_mode sm self) Hf Hm).
  - rewrite (resolved_triangular2 self Hf Hm).
    now rewrite (resolved_triangular2 (set_scale_mode sm self) Hf Hm).
  - rewrite (resolved_exp_range self Hf Hm).
    now rewrite (resolved_exp_range (set_scale_mode sm self) Hf Hm).
Qed.

(** X14: when [scale_fn] is left unset, the [scale_mode] given at
    construction is never used: the outcome of [schedule] is the same for
    every value of [scale_mode], and for the three known modes the object
    after the call is the same as well ([scale_mode] has been
    overwritten). *)
Theorem unset_scale_fn_ignores_scale_mode
    (self : CyclicLR) (sm : string) (e : Q) :
  scale_fn self = None ->
  snd (schedule e (set_scale_mode sm self)) = snd (schedule e self)
  /\ (known_mode (mode self) ->
      schedule e (set_scale_mode sm self) = schedule e self).
Proof.
  intros Hf.
  assert (Hknown : known_mode (mode self) ->
                   schedule e (set_scale_mode sm self) = schedule e self).
  { intros Hk.
    destruct (Qeq_dec (step_size self) 0) as [Hz | Hnz].
    - rewrite (schedule_zero self _ Hz).
      rewrite (schedule_zero (set_scale_mode sm self) _ Hz).
      now rewrite (resolved_set_scale_mode self sm Hf Hk).
    - rewrite (schedule_nonzero self _ Hnz).
      rewrite (schedule_nonzero (set_scale_mode sm self) _ Hnz).
      now rewrite (resolved_set_scale_mode self sm Hf Hk). }
  split; [|exact Hknown].
  destruct (mode self =? "triangular")%string eqn:H1.
  { apply String.eqb_eq in H1. rewrite Hknown; [reflexivity|]. now left. }
  destruct (mode self =? "triangular2")%string eqn:H2.
  { apply String.eqb_eq in H2. rewrite Hknown; [reflexivity|].
    right. now left. }
  destruct (mode self =? "exp_range")%string eqn:H3.
  { apply String.eqb_eq in H3. rewrite Hknown; [reflexivity|].
    right. now right. }
  assert (Hr : resolved self = self) by now apply resolved_unknown.
  assert (Hr' : resolved (set_scale_mode sm self) = set_scale_mode sm self)
    by now apply resolved_unknown.
  destruct (Qeq_dec (step_size self) 0) as [Hz | Hnz].
  - rewrite (schedule_zero self _ Hz).
    now rewrite (schedule_zero (set_scale_mode sm self) _ Hz).
  - rewrite (schedule_nonzero self _ Hnz).
    rewrite (schedule_nonzero (set_scale_mode sm self) _ Hnz).
    rewrite Hr, Hr'. cbn [snd]. unfold rate_of.
    cbn [scale_fn set_scale_mode]. now rewrite Hf.
Qed.

Lemma unset_scale_fn_ignores_scale_mode_witness :
  schedule 1500 (set_scale_mode "iterations" triangular2_default)
  = schedule 1500 triangular2_default.
Proof.
  apply (unset_scale_fn_ignores_scale_mode triangular2_default
           "iterations" 1500).
  - reflexivity.
  - right. left. reflexivity.
Defined.

(** X15: with [scale_fn] given, every [scale_mode] other than ['cycle'] is
    treated as ['iterations']: the amplitude function is applied to the
    epoch. *)
Theorem other_scale_mode_is_iterations
    (self : CyclicLR) (f : amplitude) (sm : string) (e : Q) :
  scale_fn self = Some f ->
  sm <> "cycle"%string ->
  ~ step_size self == 0 ->
  schedule e (set_scale_mode sm self)
  = (set_scale_mode sm self,
     let? a := f e in
     Ret (Spec.rate (base_lr self) (max_lr self) (step_size self) e a))
  /\ snd (schedule e (set_scale_mode sm self))
     = snd (schedule e (set_scale_mode "iterations" self)).
Proof.
  intros Hf Hsm Hnz.
  assert (Hgen : forall sm', sm' <> "cycle"%string ->
            schedule e (set_scale_mode sm' self)
            = (set_scale_mode sm' self,
               let? a := f e in
               Ret (Spec.rate (base_lr self) (max_lr self)
                      (step_size self) e a))).
  { intros sm' Hsm'.
    rewrite (schedule_nonzero (set_scale_mode sm' self) e Hnz).
    rewrite (resolved_given (set_scale_mode sm' self) f Hf).
    f_equal. unfold rate_of. cbn [scale_mode scale_fn set_scale_mode
                                  base_lr max_lr step_size].
    apply String.eqb_neq in Hsm'. now rewrite Hsm', Hf. }
  split; [now apply Hgen|].
  rewrite (Hgen sm Hsm). now rewrite (Hgen "iterations"%string).
Qed.

Lemma other_scale_mode_is_iterations_witness :
  snd (schedule 100
         (set_scale_mode "cycles"
            (CyclicLR_init None None None None (Some (fun e => Ret (e / 100)))
               None)))
  = snd (schedule 100
           (set_scale_mode "iterations"
              (CyclicLR_init None None None None
                 (Some (fun e => Ret (e / 100))) None))).
Proof.
  apply (other_scale_mode_is_iterations
           (CyclicLR_init None None None None (Some (fun e => Ret (e / 100)))
              None)
           (fun e => Ret (e / 100)) "cycles" 100).
  - reflexivity.
  - discriminate.
  - vm_compute. discriminate.
Defined.

(** X16: the first call freezes the amplitude function: after a call on an
    object with [scale_fn] unset and a known [mode], assigning any other
    [mode] has no effect on what later calls return. *)
Theorem first_call_freezes_mode
    (self : CyclicLR) (e0 : Q) (md : string) (e : Q) :
  scale_fn self = None ->
  known_mode (mode self) ->
  snd (schedule e (set_mode md (fst (schedule e0 self))))
  = snd (schedule e self).
Proof.
  intros Hf Hk. rewrite schedule_state.
  assert (Hsome : exists g, scale_fn (resolved self) = Some g).
  { destruct Hk as [Hm | [Hm | Hm]].
    - rewrite (resolved_triangular self Hf Hm). eexists. reflexivity.
    - rewrite (resolved_triangular2 self Hf Hm). eexists. reflexivity.
    - rewrite (resolved_exp_range self Hf Hm). eexists. reflexivity. }
  destruct Hsome as [g Hg].
  rewrite (schedule_given_ignores_mode (resolved self) g md e Hg).
  apply schedule_outcome_resolved.
Qed.

Lemma first_call_freezes_mode_witness :
  snd (schedule 6000
         (set_mode "triangular2" (fst (schedule 0 default_CyclicLR))))
  = snd (schedule 6000 default_CyclicLR).
Proof.
  apply (first_call_freezes_mode default_CyclicLR 0 "triangular2" 6000).
  - reflexivity.
  - left. reflexivity.
Defined.

Lemma schedule_history_independent_witness :
  fst (schedule_all [0; 500] default_CyclicLR) = resolved default_CyclicLR.
Proof.
  apply (schedule_history_independent default_CyclicLR [0; 500] 0).
  discriminate.
Defined.

(** ** The callback *)

Section CallbackFacts.

Variable Self : Type.
Variable sched : Q -> Self -> Self * outcome Q.

(** X17: when the optimizer has no [lr] attribute, training stops at its
    first epoch with the [ValueError] of the callback; [schedule] is not
    called, so the callback object, the optimizer and the output are as
    before. *)
Theorem missing_lr_stops_training
    (w : Training Self) (e : Z) (rest : list Z) :
  lr (optimizer w) = None ->
  on_epoch_begin sched e w = (w, ValueError missing_lr_message)
  /\ on_epochs sched (e :: rest) w = (w, ValueError missing_lr_message).
Proof.
  intros Hlr.
  assert (H : on_epoch_begin sched e w = (w, ValueError missing_lr_message))
    by (unfold on_epoch_begin; now rewrite Hlr).
  split; [exact H|]. cbn [on_epochs]. now rewrite H.
Qed.

Lemma on_epoch_begin_present
    (cb : Self) (c : Q) (out : list Line) (e : Z) :
  on_epoch_begin sched e (mkTraining cb (mkOptimizer (Some c)) out)
  = match snd (sched (inject_Z e) cb) with
    | Ret r =>
        (mkTraining (fst (sched (inject_Z e) cb)) (mkOptimizer (Some r))
           (out ++ [mkLine epoch_line_format e r]), Returned)
    | Raise ex =>
        (mkTraining (fst (sched (inject_Z e) cb)) (mkOptimizer (Some c)) out,
         Propagated ex)
    end.
Proof.
  unfold on_epoch_begin. cbn [lr optimizer callback stdout].
  destruct (sched (inject_Z e) cb) as [cb' [r | ex]]; reflexivity.
Qed.

(** X18: the rate that the optimizer holds before an epoch is read but
    never used: two trainings that differ in that rate only end in the
    same way, with the same callback object and the same output, and,
    when at least one epoch has run without exception, with the same
    optimizer. *)
Theorem current_lr_is_not_used
    (cb : Self) (out : list Line) (c1 c2 : Q) (epochs : list Z) :
  let w1 := mkTraining cb (mkOptimizer (Some c1)) out in
  let w2 := mkTraining cb (mkOptimizer (Some c2)) out in
  snd (on_epochs sched epochs w1) = snd (on_epochs sched epochs w2)
  /\ callback (fst (on_epochs sched epochs w1))
     = callback (fst (on_epochs sched epochs w2))
  /\ stdout (fst (on_epochs sched epochs w1))
     = stdout (fst (on_epochs sched epochs w2))
  /\ forall e rest,
       epochs = e :: rest ->
       snd (on_epoch_begin sched e w1) = Returned ->
       on_epochs sched epochs w1 = on_epochs sched epochs w2.
Proof.
  intros w1 w2. subst w1 w2.
  destruct epochs as [|e rest].
  - cbn. split; [reflexivity|]. split; [reflexivity|].
    split; [reflexivity|]. intros e rest H. discriminate.
  - cbn [on_epochs]. rewrite !on_epoch_begin_present.
    destruct (snd (sched (inject_Z e) cb)) as [r | ex] eqn:Ho.
    + split; [reflexivity|]. split; [reflexivity|].
      split; [reflexivity|]. intros e' rest' Heq _. reflexivity.
    + cbn [fst snd callback stdout].
      split; [reflexivity|]. split; [reflexivity|].
      split; [reflexivity|]. intros e' rest' Heq Hret.
      injection Heq as <- <-.
      rewrite on_epoch_begin_present, Ho in Hret. discriminate.
Qed.

End CallbackFacts.

Lemma missing_lr_stops_training_witness :
  on_epochs LearningRateScheduler_schedule [0; 1]%Z
    (mkTraining (LearningRateScheduler_init (fun e => Ret (1 / (1 + e))))
       (mkOptimizer None) [])
  = (mkTraining (LearningRateScheduler_init (fun e => Ret (1 / (1 + e))))
       (mkOptimizer None) [],
     ValueError missing_lr_message).
Proof.
  apply (missing_lr_stops_training LearningRateScheduler
           LearningRateScheduler_schedule
           (mkTraining (LearningRateScheduler_init
                          (fun e => Ret (1 / (1 + e))))
              (mkOptimizer None) [])
           0%Z [1%Z]).
  reflexivity.
Defined.

Lemma last_cons {A : Type} (a d : A) (l : list A) :
  last (a :: l) d = last l a.
Proof.
  revert a d. induction l as [|b l IH]; intros a d; [reflexivity|].
  change (last (a :: b :: l) d) with (last (b :: l) d).
  rewrite (IH b d). symmetry. apply (IH b a).
Qed.

Lemma on_epochs_cons_returned
    (cb : CyclicLR) (c r : Q) (out : list Line) (e : Z) (rest : list Z) :
  snd (schedule (inject_Z e) cb) = Ret r ->
  on_epochs schedule (e :: rest) (mkTraining cb (mkOptimizer (Some c)) out)
  = on_epochs schedule rest
      (mkTraining (resolved cb) (mkOptimizer (Some r))
         (out ++ [mkLine epoch_line_format e r])).
Proof.
  intros Hr. cbn [on_epochs]. rewrite on_epoch_begin_present, Hr.
  now rewrite schedule_state.
Qed.

Lemma on_epochs_cons_raised
    (cb : CyclicLR) (c : Q) (ex : exn) (out : list Line)
    (e : Z) (rest : list Z) :
  snd (schedule (inject_Z e) cb) = Raise ex ->
  on_epochs schedule (e :: rest) (mkTraining cb (mkOptimizer (Some c)) out)
  = (mkTraining (resolved cb) (mkOptimizer (Some c)) out, Propagated ex).
Proof.
  intros Hr. cbn [on_epochs]. rewrite on_epoch_begin_present, Hr.
  now rewrite schedule_state.
Qed.

(** X19: when training with a [CyclicLR] callback runs through a list of
    epochs without exception, one line is printed per epoch, in order; the
    rate on the line of an epoch is the rate [schedule] returns for that
    epoch on the callback as constructed; and the optimizer ends with the
    rate of the last line (or with its old rate when there was no
    epoch). *)
Theorem on_epochs_log (epochs : list Z) (w : Training CyclicLR) :
  snd (on_epochs schedule epochs w) = Returned ->
  exists lines,
    stdout (fst (on_epochs schedule epochs w)) = stdout w ++ lines
    /\ map line_epoch lines = epochs
    /\ Forall (fun l =>
                 line_format l = epoch_line_format
                 /\ snd (schedule (inject_Z (line_epoch l)) (callback w))
                    = Ret (line_rate l)) lines
    /\ lr (optimizer (fst (on_epochs schedule epochs w)))
       = last (map (fun l => Some (line_rate l)) lines) (lr (optimizer w)).
Proof.
  revert w. induction epochs as [|e rest IH]; intros w Hret.
  - exists []. cbn. rewrite app_nil_r. repeat split. constructor.
  - destruct w as [cb [[c|]] out].
    2:{ cbn in Hret. discriminate. }
    destruct (snd (schedule (inject_Z e) cb)) as [r | ex] eqn:Ho.
    2:{ rewrite (on_epochs_cons_raised cb c ex out e rest Ho) in Hret.
        discriminate. }
    rewrite (on_epochs_cons_returned cb c r out e rest Ho) in Hret |- *.
    destruct (IH _ Hret) as (lines & Hout & Hep & Hall & Hlr).
    exists (mkLine epoch_line_format e r :: lines).
    cbn [stdout callback optimizer lr] in *.
    split; [|split; [|split]].
    + rewrite Hout, <- app_assoc. reflexivity.
    + cbn. now rewrite Hep.
    + constructor.
      * split; [reflexivity | exact Ho].
      * eapply Forall_impl; [|exact Hall].
        intros l [Hfmt Hl]. split; [exact Hfmt|].
        now rewrite schedule_outcome_resolved in Hl.
    + rewrite Hlr. cbn [map line_rate]. symmetry. apply last_cons.
Qed.

Lemma on_epochs_log_witness :
  exists lines,
    stdout (fst (on_epochs schedule [0; 1; 2]%Z
                   (mkTraining triangular2_default (mkOptimizer (Some 5)) [])))
    = [] ++ lines
    /\ map line_epoch lines = [0; 1; 2]%Z
    /\ Forall (fun l =>
                 line_format l = epoch_line_format
                 /\ snd (schedule (inject_Z (line_epoch l)) triangular2_default)
                    = Ret (line_rate l)) lines
    /\ lr (optimizer (fst (on_epochs schedule [0; 1; 2]%Z
                             (mkTraining triangular2_default
                                (mkOptimizer (Some 5)) []))))
       = last (map (fun l => Some (line_rate l)) lines) (Some 5).
Proof.
  apply (on_epochs_log [0; 1; 2]%Z
           (mkTraining triangular2_default (mkOptimizer (Some 5)) [])).
  vm_compute. reflexivity.
Defined.

(** X21: training with a [CyclicLR] callback whose [scale_fn] is unset and
    whose [mode] is neither ['triangular'] nor ['triangular2'] stops at
    the first epoch: the exception of [schedule] ([NameError] for
    ['exp_range'], [TypeError] for any other mode) passes through the
    callback, the optimizer keeps its rate and nothing is printed; only
    the callback object is left in its resolved state.  [step_size] is
    not zero. *)
Theorem failing_schedule_aborts_training
    (w : Training CyclicLR) (c : Q) (e : Z) (rest : list Z) :
  scale_fn (callback w) = None ->
  mode (callback w) <> "triangular"%string ->
  mode (callback w) <> "triangular2"%string ->
  ~ step_size (callback w) == 0 ->
  lr (optimizer w) = Some c ->
  on_epochs schedule (e :: rest) w
  = (mkTraining (resolved (callback w)) (optimizer w) (stdout w),
     Propagated (if (mode (callback w) =? "exp_range")%string
                 then NameError else TypeError)).
Proof.
  intros Hf H1 H2 Hnz Hlr.
  destruct w as [cb [olr] out]. cbn [callback optimizer stdout lr] in *.
  subst olr. apply on_epochs_cons_raised.
  rewrite (schedule_nonzero cb _ Hnz). cbn [snd].
  apply String.eqb_neq in H1, H2.
  destruct (mode cb =? "exp_range")%string eqn:H3.
  - apply String.eqb_eq in H3. rewrite (resolved_exp_range cb Hf H3).
    reflexivity.
  - rewrite (resolved_unknown cb Hf H1 H2 H3). unfold rate_of.
    now rewrite Hf.
Qed.

Lemma failing_schedule_aborts_training_witness :
  on_epochs schedule [0; 1]%Z
    (mkTraining (CyclicLR_init None None None None None
                   (Some "exp_range"%string))
       (mkOptimizer (Some (1 # 100))) [])
  = (mkTraining (resolved (CyclicLR_init None None None None None
                             (Some "exp_range"%string)))
       (mkOptimizer (Some (1 # 100))) [],
     Propagated NameError).
Proof.
  apply (failing_schedule_aborts_training
           (mkTraining (CyclicLR_init None None None None None
                          (Some "exp_range"%string))
              (mkOptimizer (Some (1 # 100))) [])
           (1 # 100) 0%Z [1%Z]).
  - reflexivity.
  - discriminate.
  - discriminate.
  - vm_compute. discriminate.
  - reflexivity.
Defined.

(** X22: with [scale_mode='cycle'], [step_size > 0] and an epoch [>= 0],
    a given amplitude function is applied to a whole cycle number
    [>= 1] and to nothing else: two amplitude functions that agree on the
    integers from 1 on give the same outcome. *)
Theorem cycle_mode_samples_cycle_numbers
    (self : CyclicLR) (f g : amplitude) (e : Q) :
  scale_fn self = Some f ->
  scale_mode self = "cycle"%string ->
  0 < step_size self ->
  0 <= e ->
  (forall n : Z, (1 <= n)%Z -> f (inject_Z n) = g (inject_Z n)) ->
  (1 <= Spec.cycle (step_size self) e)%Z
  /\ snd (schedule e (set_scale_fn (Some g) self)) = snd (schedule e self).
Proof.
  intros Hf Hsm Hs He Hagree.
  assert (Hnz : ~ step_size self == 0) by lra.
  pose proof (cycle_ge_1 _ _ Hs He) as Hc.
  split; [exact Hc|].
  rewrite (schedule_nonzero self e Hnz).
  rewrite (schedule_nonzero (set_scale_fn (Some g) self) e Hnz).
  rewrite (resolved_given self f Hf).
  rewrite (resolved_given (set_scale_fn (Some g) self) g eq_refl).
  cbn [snd]. unfold rate_of.
  cbn [scale_fn scale_mode set_scale_fn base_lr max_lr step_size].
  rewrite Hf, Hsm. cbn [String.eqb Ascii.eqb Bool.eqb].
  unfold Np.floor. now rewrite (Hagree _ Hc).
Qed.

Lemma cycle_mode_samples_cycle_numbers_witness :
  snd (schedule 4500
         (set_scale_fn (Some (fun x => Ret (1 / Qabs x)))
            (CyclicLR_init None None None None (Some (fun x => Ret (1 / x)))
               None)))
  = snd (schedule 4500
           (CyclicLR_init None None None None (Some (fun x => Ret (1 / x)))
              None)).
Proof.
  apply (cycle_mode_samples_cycle_numbers
           (CyclicLR_init None None None None (Some (fun x => Ret (1 / x)))
              None)
           (fun x => Ret (1 / x)) (fun x => Ret (1 / Qabs x)) 4500).
  - reflexivity.
  - reflexivity.
  - vm_compute. reflexivity.
  - vm_compute. discriminate.
  - intros n Hn. unfold inject_Z, Qabs.
    rewrite Z.abs_eq by lia. reflexivity.
Defined.

Lemma on_epochs_default_run (epochs : list Z) :
  forall (cb : CyclicLR) (c : Q) (out : list Line),
    bounded_mode cb ->
    ~ step_size cb == 0 ->
    exists cb' c' lines,
      on_epochs schedule epochs (mkTraining cb (mkOptimizer (Some c)) out)
      = (mkTraining cb' (mkOptimizer (Some c')) (out ++ lines), Returned)
      /\ map line_epoch lines = epochs.
Proof.
  induction epochs as [|e rest IH]; intros cb c out Hinv Hnz.
  - exists cb, c, []. rewrite app_nil_r. split; reflexivity.
  - destruct (bounded_mode_resolved cb Hinv) as [Hsm Hfn].
    destruct (rate_of_default_modes_returns (resolved cb) (inject_Z e)
                Hsm Hfn) as [r Hr].
    assert (Ho : snd (schedule (inject_Z e) cb) = Ret r)
      by (rewrite (schedule_nonzero cb _ Hnz); exact Hr).
    destruct (resolved_numbers cb) as (_ & _ & Hstep & _).
    rewrite (on_epochs_cons_returned cb c r out e rest Ho).
    destruct (IH (resolved cb) r (out ++ [mkLine epoch_line_format e r]))
      as (cb' & c' & lines & Hrun & Hep).
    { right. split; assumption. }
    { now rewrite Hstep. }
    exists cb', c', (mkLine epoch_line_format e r :: lines). split.
    + rewrite Hrun, <- app_assoc. reflexivity.
    + cbn. now rewrite Hep.
Qed.

(** X20: training with a [CyclicLR] callback of mode ['triangular'] or
    ['triangular2'] ([scale_fn] unset, [step_size] not zero) on an
    optimizer that has an [lr] runs through every list of epochs without
    an exception, and prints one line per epoch, in order.  The epochs
    are integers of magnitude at most [2 ^ 53], the ones Python converts
    to a float without loss. *)
Theorem on_epochs_default_modes_return
    (epochs : list Z) (w : Training CyclicLR) (c : Q) :
  Forall (fun e => (Z.abs e <= 2 ^ 53)%Z) epochs ->
  bounded_mode (callback w) ->
  ~ step_size (callback w) == 0 ->
  lr (optimizer w) = Some c ->
  snd (on_epochs schedule epochs w) = Returned
  /\ exists lines,
       stdout (fst (on_epochs schedule epochs w)) = stdout w ++ lines
       /\ map line_epoch lines = epochs.
Proof.
  intros _ Hinv Hnz Hlr.
  destruct w as [cb [olr] out]. cbn [callback optimizer stdout lr] in *.
  subst olr.
  destruct (on_epochs_default_run epochs cb c out Hinv Hnz)
    as (cb' & c' & lines & Hrun & Hep).
  rewrite Hrun. cbn [fst snd stdout].
  split; [reflexivity|]. exists lines. split; [reflexivity | exact Hep].
Qed.

Lemma on_epochs_default_modes_return_witness :
  snd (on_epochs schedule [0; 1000; 3000]%Z
         (mkTraining triangular2_default (mkOptimizer (Some 1)) []))
  = Returned.
Proof.
  apply (on_epochs_default_modes_return [0; 1000; 3000]%Z
           (mkTraining triangular2_default (mkOptimizer (Some 1)) []) 1).
  - repeat (constructor; [vm_compute; discriminate|]). constructor.
  - left. split; [reflexivity | right; reflexivity].
  - vm_compute. discriminate.
  - reflexivity.
Defined.

(** ** Evaluations in binary64 *)

Import PrimFloat.

Set Warnings "-inexact-float,-abstract-large-number".



(** With the default configuration the binary64 rate lies between
    [base_lr] and [max_lr] at every integer epoch from 0 to 12000, in mode
    ['triangular'] and in mode ['triangular2']. *)
Lemma B64_default_bounds_hold :
  forallb (fun e =>
             let r := B64.rate (B64.schedule (B64.of_Z (Z.of_nat e))
                                  (B64.CyclicLR_init None None None None None
                                     None)) in
             let r2 := B64.rate (B64.schedule (B64.of_Z (Z.of_nat e))
                                   B64.triangular2_default) in
             leb 0.001 r && leb r 0.006 && leb 0.001 r2 && leb r2 0.006)
          (seq 0 12001)
  = true.
Proof. vm_compute. reflexivity. Qed.

(** With the default [step_size=2000] the binary64 rate is [base_lr] at
    every epoch [4000 * k] for [k] from 0 to 3000, in both modes. *)
Lemma B64_default_boundaries :
  forallb (fun k =>
             let e := B64.of_Z (4000 * Z.of_nat k) in
             eqb (B64.rate (B64.schedule e
                              (B64.CyclicLR_init None None None None None
                                 None))) 0.001
             && eqb (B64.rate (B64.schedule e B64.triangular2_default)) 0.001)
          (seq 0 3001)
  = true.
Proof. vm_compute. reflexivity. Qed.


(** C10, as stated, fails in binary64: with [step_size=0.1] and [k=3] the
    call [schedule 0.6] returns [0.0010000000000000044], not [base_lr],
    and so does the call at the product [2 * 3 * 0.1] as binary64
    computes it; neither float is exactly six times the float [0.1]. *)
Lemma binary64_boundary_is_not_base_lr :
  ltb 0 (B64.step_size B64.step_tenth) = true
  /\ snd (B64.schedule 0.6 B64.step_tenth) = Ret 0.0010000000000000044%float
  /\ snd (B64.schedule (2 * 3 * 0.1) B64.step_tenth)
     = Ret 0.0010000000000000044%float
  /\ eqb 0.0010000000000000044 (B64.base_lr B64.step_tenth) = false
  /\ eqb (2 * 3 * 0.1) 0.6 = false.
Proof. repeat split; vm_compute; reflexivity. Qed.


